(** * source_checker: the byte scanner of [source_checker/main.cpp]

    A shallow embedding of [checkOneFile] and [main], and the properties of
    the scan that the specification states.

    Modelling conventions.
    - A file is a list of raw bytes ([Byte.byte]).  The scanner reads them
      into a [char], which the source documents as signed (-128 .. 127):
      [char_of_byte] is that reading, and the masks of the UTF-8 helpers are
      applied to the promoted (sign-extended) integer, as in C++.
    - The counters are C++ [int]s.  Signed overflow is undefined, so they are
      modelled as [Z]; [counters_bounded] shows that no counter exceeds the
      number of loop iterations, so nothing overflows for a file shorter than
      2^31 - 2 bytes.
    - The state variable [ss] is kept as the integer an [enum State] object
      holds, and the [switch] decodes it; a value outside the six
      enumerators reaches [default: assert(0)], modelled as [AssertFail].
    - [goto reenter_point] is modelled by [reenter_point], which re-runs the
      [switch] on the same [c]; it is given fuel and shown never to exhaust
      it.
    - [char c] is declared without an initialiser and [ifs.get(c)] leaves it
      untouched when it fails.  The model keeps [c] in one storage slot for
      the whole loop: a failing [get] sees the byte of the previous
      iteration, and before the first successful [get] the slot holds an
      arbitrary byte [c0], a parameter of the scan.
    - Standard output is a list of [Line]s; [perror] is recorded in the same
      trace as [Perror]. *)

From Stdlib Require Import ZArith List String Bool Lia.
From Stdlib Require Import Strings.Byte.
From Stdlib Require Import Sorting.Sorted.
Import ListNotations.
Open Scope Z_scope.

Module SourceChecker.

(** ** Characters and the UTF-8 helpers *)

(** The value of a [char] holding the raw byte [b] (signed, two's complement). *)
Definition char_of_byte (b : byte) : Z :=
  let n := Z.of_N (Byte.to_N b) in
  if n <? 128 then n else n - 256.

(** [(unsigned char)c] *)
Definition unsigned_char (c : Z) : Z := c mod 256.

Definition isUtf8Trailer (c : Z) : bool := Z.land c 0xc0 =? 0x80.
Definition isUtf8Header1 (c : Z) : bool := Z.land c 0xe0 =? 0xc0.
Definition isUtf8Header2 (c : Z) : bool := Z.land c 0xf0 =? 0xe0.
Definition isUtf8Header3 (c : Z) : bool := Z.land c 0xf8 =? 0xf0.

(** Character literals used by the scanner. *)
Definition LF : Z := 10.   (* '\n' *)
Definition CR : Z := 13.   (* '\r' *)
Definition TAB : Z := 9.   (* '\t' *)

(** ** The state enumeration *)

Inductive State : Set :=
| S_NORMAL
| S_BOL
| S_CR
| S_UTF_EXPECT3
| S_UTF_EXPECT2
| S_UTF_EXPECT1.

(** The integer value of each enumerator (declaration order, from 0). *)
Definition enumerator (s : State) : Z :=
  match s with
  | S_NORMAL => 0
  | S_BOL => 1
  | S_CR => 2
  | S_UTF_EXPECT3 => 3
  | S_UTF_EXPECT2 => 4
  | S_UTF_EXPECT1 => 5
  end.

(** The case label that [switch (ss)] selects; [None] is [default]. *)
Definition case_of (z : Z) : option State :=
  match z with
  | 0 => Some S_NORMAL
  | 1 => Some S_BOL
  | 2 => Some S_CR
  | 3 => Some S_UTF_EXPECT3
  | 4 => Some S_UTF_EXPECT2
  | 5 => Some S_UTF_EXPECT1
  | _ => None
  end.

(** ** Output *)

Inductive Line : Type :=
| Checking (filename : string)                          (* Checking <filename> *)
| Incident (filename : string) (line : Z) (msg : string) (* <filename>(<line>) [ERROR] :<msg> *)
| Perror (filename : string).                            (* perror(filename), on stderr *)

Definition msg_tab : string := "Tab character".
Definition msg_bad_utf : string := "Bad multibyte sequence".
Definition msg_c1 : string := "Unexpected control character".
Definition msg_crlf : string := "Windows newline sequence (CR,LF)".
Definition msg_cr : string := "Old-time MacOS newline sequence (CR)".
Definition msg_missing_eol : string := "Missing EOL at end of file".

(** [report]: the incident is printed only when its count is 1. *)
Definition report (incident_count : Z) (msg filename : string) (line_count : Z)
  (cout : list Line) : list Line :=
  if incident_count =? 1
  then cout ++ [Incident filename (line_count + 1) msg]
  else cout.

(** ** The local variables of [checkOneFile] *)

Record Scan : Type := mkScan {
  line_count : Z;
  tab_count : Z;
  crlf_count : Z;
  cr_count : Z;
  c1_count : Z;
  bad_utf_count : Z;
  ss : Z;
  cout : list Line
}.

Definition init : Scan :=
  {| line_count := 0; tab_count := 0; crlf_count := 0; cr_count := 0;
     c1_count := 0; bad_utf_count := 0; ss := enumerator S_BOL; cout := [] |}.

Definition set_ss (s : State) (st : Scan) : Scan :=
  mkScan (line_count st) (tab_count st) (crlf_count st) (cr_count st)
         (c1_count st) (bad_utf_count st) (enumerator s) (cout st).

Definition set_cout (o : list Line) (st : Scan) : Scan :=
  mkScan (line_count st) (tab_count st) (crlf_count st) (cr_count st)
         (c1_count st) (bad_utf_count st) (ss st) o.

Definition incr_line_count (st : Scan) : Scan :=
  mkScan (line_count st + 1) (tab_count st) (crlf_count st) (cr_count st)
         (c1_count st) (bad_utf_count st) (ss st) (cout st).

Definition incr_tab_count (st : Scan) : Scan :=
  mkScan (line_count st) (tab_count st + 1) (crlf_count st) (cr_count st)
         (c1_count st) (bad_utf_count st) (ss st) (cout st).

Definition incr_crlf_count (st : Scan) : Scan :=
  mkScan (line_count st) (tab_count st) (crlf_count st + 1) (cr_count st)
         (c1_count st) (bad_utf_count st) (ss st) (cout st).

Definition incr_cr_count (st : Scan) : Scan :=
  mkScan (line_count st) (tab_count st) (crlf_count st) (cr_count st + 1)
         (c1_count st) (bad_utf_count st) (ss st) (cout st).

Definition incr_c1_count (st : Scan) : Scan :=
  mkScan (line_count st) (tab_count st) (crlf_count st) (cr_count st)
         (c1_count st + 1) (bad_utf_count st) (ss st) (cout st).

Definition incr_bad_utf_count (st : Scan) : Scan :=
  mkScan (line_count st) (tab_count st) (crlf_count st) (cr_count st)
         (c1_count st) (bad_utf_count st + 1) (ss st) (cout st).

(** [report(count, msg, filename, line_count)] on the current variables. *)
Definition do_report (count : Scan -> Z) (msg filename : string) (st : Scan) : Scan :=
  set_cout (report (count st) msg filename (line_count st) (cout st)) st.

(** ** The body of the read loop *)

(** [case S_NORMAL:], the inner [switch (c)]. *)
Definition case_S_NORMAL (filename : string) (st : Scan) (c : Z) : Scan :=
  if c =? LF then set_ss S_BOL (incr_line_count st)
  else if c =? CR then set_ss S_CR st
  else if c =? TAB then do_report tab_count msg_tab filename (incr_tab_count st)
  else if isUtf8Header3 c then set_ss S_UTF_EXPECT3 st
  else if isUtf8Header2 c then set_ss S_UTF_EXPECT2 st
  else if isUtf8Header1 c then set_ss S_UTF_EXPECT1 st
  else if isUtf8Trailer c
       then do_report bad_utf_count msg_bad_utf filename (incr_bad_utf_count st)
  else if unsigned_char c <? 0x20
       then do_report c1_count msg_c1 filename (incr_c1_count st)
  else st.

(** The [else] branch of [case S_UTF_EXPECTn:], for a byte that is not a
    trailer: [bad_utf_count++; report(...); ss = S_NORMAL;]. *)
Definition bad_trailer (filename : string) (st : Scan) : Scan :=
  set_ss S_NORMAL
    (do_report bad_utf_count msg_bad_utf filename (incr_bad_utf_count st)).

(** [case S_UTF_EXPECTn:], where [expect] is the state after a trailer. *)
Definition case_S_UTF_EXPECT (expect : State) (filename : string) (st : Scan)
  (c : Z) : Scan :=
  if isUtf8Trailer c then set_ss expect st else bad_trailer filename st.

(** [case S_CR:] with [c == '\n']:
    [crlf_count++; report(...); line_count++; ss = S_BOL;]. *)
Definition cr_lf (filename : string) (st : Scan) : Scan :=
  set_ss S_BOL (incr_line_count
    (do_report crlf_count msg_crlf filename (incr_crlf_count st))).

(** [case S_CR:] with another byte, up to the [goto]:
    [cr_count++; report(...); line_count++; ss = S_BOL;]. *)
Definition bare_cr (filename : string) (st : Scan) : Scan :=
  set_ss S_BOL (incr_line_count
    (do_report cr_count msg_cr filename (incr_cr_count st))).

(** How one execution of the [switch] statement ends. *)
Inductive Flow : Type :=
| Break (st : Scan)            (* falls out of the switch: next loop test *)
| Goto_reenter_point (st : Scan)
| Assert_failed.               (* default: assert(0) *)

Definition switch_ss (filename : string) (st : Scan) (c : Z) : Flow :=
  match case_of (ss st) with
  | Some S_BOL => Break (case_S_NORMAL filename (set_ss S_NORMAL st) c)
  | Some S_NORMAL => Break (case_S_NORMAL filename st c)
  | Some S_CR =>
      if c =? LF then Break (cr_lf filename st)
      else (* We do not consume the current c. *)
        Goto_reenter_point (bare_cr filename st)
  | Some S_UTF_EXPECT3 => Break (case_S_UTF_EXPECT S_UTF_EXPECT2 filename st c)
  | Some S_UTF_EXPECT2 => Break (case_S_UTF_EXPECT S_UTF_EXPECT1 filename st c)
  | Some S_UTF_EXPECT1 => Break (case_S_UTF_EXPECT S_NORMAL filename st c)
  | None => Assert_failed
  end.

Inductive Outcome (A : Type) : Type :=
| Done (a : A)
| AssertFail
| OutOfFuel.
Arguments Done {A} a.
Arguments AssertFail {A}.
Arguments OutOfFuel {A}.

Definition bind {A B : Type} (o : Outcome A) (k : A -> Outcome B) : Outcome B :=
  match o with
  | Done a => k a
  | AssertFail => AssertFail
  | OutOfFuel => OutOfFuel
  end.

(** From the label [reenter_point] to the end of the loop body. *)
Fixpoint reenter_point (fuel : nat) (filename : string) (st : Scan) (c : Z)
  : Outcome Scan :=
  match fuel with
  | O => OutOfFuel
  | S fuel' =>
      match switch_ss filename st c with
      | Break st' => Done st'
      | Goto_reenter_point st' => reenter_point fuel' filename st' c
      | Assert_failed => AssertFail
      end
  end.

(** The [goto] is taken at most once for a byte ([loop_body_fuel]). *)
Definition loop_body (filename : string) (st : Scan) (c : Z) : Outcome Scan :=
  reenter_point 2 filename st c.

(** [while (ifs) { char c; ifs.get(c); ... }] over the bytes still in the
    stream; [c] is the content of the slot of the variable [c].  When the
    stream is exhausted the test [while (ifs)] still succeeds once: [get]
    fails, leaves [c] as it was, and the body runs on it. *)
Fixpoint read_loop (filename : string) (stream : list byte) (c : Z) (st : Scan)
  : Outcome Scan :=
  match stream with
  | b :: rest =>
      bind (loop_body filename st (char_of_byte b))
           (read_loop filename rest (char_of_byte b))
  | [] => loop_body filename st c
  end.

(** The iterations whose [get] succeeds, without the last one. *)
Fixpoint feed (filename : string) (stream : list byte) (st : Scan) : Outcome Scan :=
  match stream with
  | b :: rest => bind (loop_body filename st (char_of_byte b)) (feed filename rest)
  | [] => Done st
  end.

(** [if (ss != S_BOL) report(1, "Missing EOL at end of file", ...)] *)
Definition end_of_stream (filename : string) (st : Scan) : Scan :=
  if negb (ss st =? enumerator S_BOL)
  then set_cout (report 1 msg_missing_eol filename (line_count st) (cout st)) st
  else st.

(** The scan of an opened stream, up to the test of [ifs.eof()]. *)
Definition scan (filename : string) (stream : list byte) (c0 : byte) : Outcome Scan :=
  bind (read_loop filename stream (char_of_byte c0) init)
       (fun st => Done (end_of_stream filename st)).

(** ** Files and [checkOneFile] *)

(** What the stream delivers: the bytes read successfully, and whether the
    stream then stopped on a read error instead of the end of the file. *)
Record FileData : Type := mkFile {
  content : list byte;
  read_error : bool
}.

(** [None]: the file cannot be opened. *)
Definition FileSystem : Type := string -> option FileData.

Definition checkOneFile (fs : FileSystem) (c0 : byte) (filename : string)
  : Outcome (bool * list Line) :=
  match fs filename with
  | None => Done (false, [Checking filename; Perror filename])
  | Some f =>
      bind (scan filename (content f) c0)
           (fun st =>
              let out := Checking filename :: cout st in
              if read_error f (* ! ifs.eof() *)
              then Done (false, out ++ [Perror filename])
              else Done (true, out))
  end.

Definition EXIT_SUCCESS : Z := 0.
Definition EXIT_FAILURE : Z := 1.

(** [for (int i = 1; i < argc; i++)] over [argv[i], argv[i+1], ...];
    [junk i] is the arbitrary initial content of [c] in the i-th scan. *)
Fixpoint main_loop (fs : FileSystem) (junk : nat -> byte) (i : nat)
  (args : list string) : Outcome (Z * list Line) :=
  match args with
  | [] => Done (EXIT_SUCCESS, [])
  | a :: rest =>
      bind (checkOneFile fs (junk i) a)
           (fun r =>
              if negb (fst r) then Done (EXIT_FAILURE, snd r)
              else bind (main_loop fs junk (S i) rest)
                        (fun r' => Done (fst r', snd r ++ snd r')))
  end.

(** [args] is [argv] without the program name [argv[0]]. *)
Definition main (fs : FileSystem) (junk : nat -> byte) (args : list string)
  : Outcome (Z * list Line) :=
  main_loop fs junk 1 args.

(** ** Observations on the output *)

Definition has_msg (msg : string) (l : Line) : bool :=
  match l with
  | Incident _ _ m => String.eqb m msg
  | _ => false
  end.

(** The incident lines of [out] that carry the message [msg]. *)
Definition lines_with (msg : string) (out : list Line) : list Line :=
  filter (has_msg msg) out.

Definition is_incident (l : Line) : bool :=
  match l with
  | Incident _ _ _ => true
  | _ => false
  end.

Definition incident_lines (out : list Line) : list Line := filter is_incident out.

Definition is_checking (l : Line) : bool :=
  match l with
  | Checking _ => true
  | _ => false
  end.

Definition announcements (out : list Line) : list Line := filter is_checking out.

(** ** The scan as a total function

    [next] is the state after one execution of the loop body and [after] the
    state after the iterations that consume [stream]; both are read off
    [loop_body], and agree with it on every state whose [ss] is an
    enumerator ([loop_body_next], [feed_after], [read_loop_after]). *)

Definition valid_ss (st : Scan) : Prop := exists s, ss st = enumerator s.

Definition next (filename : string) (st : Scan) (c : Z) : Scan :=
  match loop_body filename st c with
  | Done st' => st'
  | _ => st
  end.

Fixpoint after (filename : string) (stream : list byte) (st : Scan) : Scan :=
  match stream with
  | b :: rest => after filename rest (next filename st (char_of_byte b))
  | [] => st
  end.

(** The content of the slot of [c] once [stream] has been read. *)
Fixpoint last_char (stream : list byte) (c : Z) : Z :=
  match stream with
  | b :: rest => last_char rest (char_of_byte b)
  | [] => c
  end.

(** The state when the loop is left. *)
Definition at_exit (f : string) (l : list byte) (c0 : byte) : Scan :=
  next f (after f l init) (last_char l (char_of_byte c0)).

(** The states of the machine, as the loop reaches them: the initial one,
    and the one each execution of the [switch] leaves, by [break] or by
    [goto]. *)
Inductive Reachable (f : string) : Scan -> Prop :=
| Reachable_init : Reachable f init
| Reachable_break (st st' : Scan) (c : Z) :
    Reachable f st -> switch_ss f st c = Break st' -> Reachable f st'
| Reachable_goto (st st' : Scan) (c : Z) :
    Reachable f st -> switch_ss f st c = Goto_reenter_point st' -> Reachable f st'.

(** The state is one in which a pending multibyte sequence awaits a trailer. *)
Definition expects_trailer (st : Scan) : bool :=
  (ss st =? enumerator S_UTF_EXPECT3) || (ss st =? enumerator S_UTF_EXPECT2)
  || (ss st =? enumerator S_UTF_EXPECT1).

(** ** Files as [main] sees them *)

(** The scan of [a] meets no I/O failure: it opens and ends at end-of-file. *)
Definition io_ok (fs : FileSystem) (a : string) : bool :=
  match fs a with
  | Some f => negb (read_error f)
  | None => false
  end.

(** The arguments up to and including the first whose scan fails. *)
Fixpoint scanned (fs : FileSystem) (args : list string) : list string :=
  match args with
  | [] => []
  | a :: rest => a :: (if io_ok fs a then scanned fs rest else [])
  end.

(** A file system for examples: [tabs.c] holds a tab, a CR and a stray
    continuation byte, [noeol.c] the single letter A; nothing else opens. *)
Definition example_fs : FileSystem :=
  fun a => if String.eqb a "tabs.c"
           then Some (mkFile [x09; x0d; x80] false)
           else if String.eqb a "noeol.c"
           then Some (mkFile [x41] false)
           else None.

(** ** Byte-level descriptions of a file, after the specification *)

(** The number of line terminators of a byte sequence: a CR counts one, and
    so does an LF that does not directly follow a CR. *)
Fixpoint count_eol (after_cr : bool) (l : list byte) : Z :=
  match l with
  | [] => 0
  | b :: rest =>
      let c := char_of_byte b in
      if c =? LF then (if after_cr then 0 else 1) + count_eol false rest
      else if c =? CR then 1 + count_eol true rest
      else count_eol false rest
  end.

(** Structural validity of UTF-8, by the byte patterns of the helpers:
    [pending] trailers are still owed to the last lead byte. *)
Fixpoint utf8_wellformed (pending : nat) (l : list byte) : bool :=
  match l with
  | [] => true
  | b :: rest =>
      let c := char_of_byte b in
      match pending with
      | S k => isUtf8Trailer c && utf8_wellformed k rest
      | O =>
          if isUtf8Header3 c then utf8_wellformed 3 rest
          else if isUtf8Header2 c then utf8_wellformed 2 rest
          else if isUtf8Header1 c then utf8_wellformed 1 rest
          else negb (isUtf8Trailer c) && utf8_wellformed 0 rest
      end
  end.

(** One, when a CR has been read and not yet counted as an end of line. *)
Definition cr_pending (st : Scan) : Z :=
  if ss st =? enumerator S_CR then 1 else 0.

(** The machine awaits exactly [p] trailers. *)
Definition owes (p : nat) (st : Scan) : Prop :=
  match p with
  | 0%nat => expects_trailer st = false
  | 1%nat => ss st = enumerator S_UTF_EXPECT1
  | 2%nat => ss st = enumerator S_UTF_EXPECT2
  | 3%nat => ss st = enumerator S_UTF_EXPECT3
  | _ => False
  end.

(** 7-bit ASCII text: no byte from 0x80, no control byte but LF. *)
Definition plain_byte (b : byte) : bool :=
  let c := char_of_byte b in
  (0 <=? c) && ((32 <=? c) || (c =? LF)).

(** ** Invariants of the output *)

(** A line that the loop can print: an incident of one of its five
    categories. *)
Definition loop_line (l : Line) : bool :=
  has_msg msg_tab l || has_msg msg_bad_utf l || has_msg msg_c1 l
  || has_msg msg_crlf l || has_msg msg_cr l.

(** The counter [cnt] is not negative, and the message [msg] is in the
    output once if [cnt] has left 0 and not at all otherwise. *)
Definition counted (cnt : Scan -> Z) (msg : string) (st : Scan) : Prop :=
  0 <= cnt st /\
  List.length (lines_with msg (cout st)) = if cnt st =? 0 then 0%nat else 1%nat.

Definition Lines_inv (st : Scan) : Prop :=
  counted tab_count msg_tab st /\
  counted bad_utf_count msg_bad_utf st /\
  counted c1_count msg_c1 st /\
  counted crlf_count msg_crlf st /\
  counted cr_count msg_cr st /\
  forallb loop_line (cout st) = true.

(** No counter of [a] exceeds the one of [b], and none of [b] exceeds the
    one of [a] by more than [n]. *)
Definition counters_within (n : Z) (a b : Scan) : Prop :=
  line_count a <= line_count b <= line_count a + n /\
  tab_count a <= tab_count b <= tab_count a + n /\
  crlf_count a <= crlf_count b <= crlf_count a + n /\
  cr_count a <= cr_count b <= cr_count a + n /\
  c1_count a <= c1_count b <= c1_count a + n /\
  bad_utf_count a <= bad_utf_count b <= bad_utf_count a + n.

(** ** Further observations *)

(** The raw value of a byte, 0 .. 255. *)
Definition unsigned_byte (b : byte) : Z := Z.of_N (Byte.to_N b).



Definition is_perror (l : Line) : bool :=
  match l with
  | Perror _ => true
  | _ => false
  end.



(** ** Proof automation *)

Ltac unfold_scan :=
  cbv [case_S_NORMAL case_S_UTF_EXPECT bare_cr cr_lf bad_trailer
       do_report report set_ss set_cout incr_line_count incr_tab_count
       incr_crlf_count incr_cr_count incr_c1_count incr_bad_utf_count
       line_count tab_count crlf_count cr_count c1_count bad_utf_count
       ss cout] in *.

Ltac split_ifs :=
  repeat match goal with
         | |- context [if ?b then _ else _] =>
             let E := fresh "E" in destruct b eqn:E
         end.

Ltac prop_eqb :=
  repeat match goal with
         | H : (_ =? _) = true |- _ => apply Z.eqb_eq in H
         | H : (_ =? _) = false |- _ => apply Z.eqb_neq in H
         end.

Ltac eval_string_eqb :=
  repeat match goal with
         | |- context [String.eqb ?a ?b] =>
             let v := eval vm_compute in (String.eqb a b) in
             change (String.eqb a b) with v
         end.

(** * Properties *)

(** ** The loop body is total on enumerator states *)

Lemma case_of_enumerator (s : State) : case_of (enumerator s) = Some s.
Proof. destruct s; reflexivity. Qed.

Lemma enumerator_inj (s t : State) : enumerator s = enumerator t -> s = t.
Proof. destruct s, t; simpl; intro H; try reflexivity; discriminate H. Qed.

Lemma case_of_Some (z : Z) (s : State) : case_of z = Some s -> z = enumerator s.
Proof.
  unfold case_of.
  destruct z as [|p|p]; try discriminate;
    [ | repeat (destruct p as [p|p|]; try discriminate) ];
    intro H; injection H as <-; reflexivity.
Qed.

(** The loop body, case by case of the state it starts in. *)
Lemma loop_body_eq (f : string) (st : Scan) (c : Z) (s : State) :
  ss st = enumerator s ->
  loop_body f st c =
  Done (match s with
        | S_NORMAL => case_S_NORMAL f st c
        | S_BOL => case_S_NORMAL f (set_ss S_NORMAL st) c
        | S_CR => if c =? LF then cr_lf f st
                  else case_S_NORMAL f (set_ss S_NORMAL (bare_cr f st)) c
        | S_UTF_EXPECT3 => case_S_UTF_EXPECT S_UTF_EXPECT2 f st c
        | S_UTF_EXPECT2 => case_S_UTF_EXPECT S_UTF_EXPECT1 f st c
        | S_UTF_EXPECT1 => case_S_UTF_EXPECT S_NORMAL f st c
        end).
Proof.
  intro H. unfold loop_body, reenter_point, switch_ss.
  rewrite H, case_of_enumerator.
  destruct s; try reflexivity.
  destruct (c =? LF); reflexivity.
Qed.

Lemma next_eq (f : string) (st : Scan) (c : Z) (s : State) :
  ss st = enumerator s ->
  next f st c =
  match s with
  | S_NORMAL => case_S_NORMAL f st c
  | S_BOL => case_S_NORMAL f (set_ss S_NORMAL st) c
  | S_CR => if c =? LF then cr_lf f st
            else case_S_NORMAL f (set_ss S_NORMAL (bare_cr f st)) c
  | S_UTF_EXPECT3 => case_S_UTF_EXPECT S_UTF_EXPECT2 f st c
  | S_UTF_EXPECT2 => case_S_UTF_EXPECT S_UTF_EXPECT1 f st c
  | S_UTF_EXPECT1 => case_S_UTF_EXPECT S_NORMAL f st c
  end.
Proof. intro H. unfold next. rewrite (loop_body_eq f st c s H). reflexivity. Qed.

(** One iteration from a state whose [ss] is known:
    [H : ss st = enumerator s]. *)
Ltac step_at f st c H :=
  rewrite (next_eq f st c _ H);
  let lc := fresh "lc" in let tc := fresh "tc" in let wc := fresh "wc" in
  let rc := fresh "rc" in let kc := fresh "kc" in let bc := fresh "bc" in
  let z := fresh "z" in let out := fresh "out" in
  destruct st as [lc tc wc rc kc bc z out];
  cbn [line_count tab_count crlf_count cr_count c1_count bad_utf_count ss cout] in *;
  subst z; unfold_scan.

(** The same, by cases on the state [s]. *)
Ltac step_cases f st c s H := destruct s; step_at f st c H.

Lemma loop_body_next (f : string) (st : Scan) (c : Z) :
  valid_ss st -> loop_body f st c = Done (next f st c).
Proof.
  intros [s H]. rewrite (next_eq f st c s H). apply loop_body_eq, H.
Qed.

(** More fuel changes nothing: the [goto] is taken at most once, and the
    [switch] that follows it ends in a [break]. *)
Lemma loop_body_fuel (f : string) (st : Scan) (c : Z) (n : nat) :
  reenter_point (S (S n)) f st c = loop_body f st c.
Proof.
  unfold loop_body. cbn [reenter_point]. unfold switch_ss.
  destruct (case_of (ss st)) as [s|]; [|reflexivity].
  destruct s; try reflexivity.
  destruct (c =? LF); [reflexivity|].
  cbn [bare_cr set_ss ss]. rewrite case_of_enumerator.
  destruct n; reflexivity.
Qed.

Lemma case_S_NORMAL_valid (f : string) (st : Scan) (c : Z) :
  valid_ss st -> valid_ss (case_S_NORMAL f st c).
Proof.
  intros [s H]. unfold valid_ss. unfold_scan. split_ifs; cbn [ss]; eauto.
Qed.

Lemma next_valid (f : string) (st : Scan) (c : Z) :
  valid_ss st -> valid_ss (next f st c).
Proof.
  intros [s H]. rewrite (next_eq f st c s H).
  destruct s; try (apply case_S_NORMAL_valid; eexists; reflexivity).
  - apply case_S_NORMAL_valid; eexists; exact H.
  - destruct (c =? LF).
    + eexists; reflexivity.
    + apply case_S_NORMAL_valid; eexists; reflexivity.
  - unfold valid_ss; unfold_scan; split_ifs; cbn [ss]; eauto.
  - unfold valid_ss; unfold_scan; split_ifs; cbn [ss]; eauto.
  - unfold valid_ss; unfold_scan; split_ifs; cbn [ss]; eauto.
Qed.

Lemma after_valid (f : string) (l : list byte) :
  forall st, valid_ss st -> valid_ss (after f l st).
Proof.
  induction l as [|b l IH]; intros st H; simpl; [exact H|].
  apply IH, next_valid, H.
Qed.

Lemma init_valid : valid_ss init.
Proof. exists S_BOL; reflexivity. Qed.

Lemma feed_after (f : string) (l : list byte) :
  forall st, valid_ss st -> feed f l st = Done (after f l st).
Proof.
  induction l as [|b l IH]; intros st H; simpl; [reflexivity|].
  rewrite (loop_body_next f st _ H). simpl. apply IH, next_valid, H.
Qed.

Lemma read_loop_after (f : string) (l : list byte) :
  forall c st, valid_ss st ->
  read_loop f l c st = Done (next f (after f l st) (last_char l c)).
Proof.
  induction l as [|b l IH]; intros c st H; simpl.
  - apply loop_body_next, H.
  - rewrite (loop_body_next f st _ H). simpl. apply IH, next_valid, H.
Qed.

Lemma scan_eq (f : string) (l : list byte) (c0 : byte) :
  scan f l c0 = Done (end_of_stream f (at_exit f l c0)).
Proof.
  unfold scan. rewrite (read_loop_after f l _ init init_valid). reflexivity.
Qed.

Lemma after_app (f : string) (l1 l2 : list byte) :
  forall st, after f (l1 ++ l2) st = after f l2 (after f l1 st).
Proof.
  induction l1 as [|b l1 IH]; intros st; simpl; [reflexivity|]. apply IH.
Qed.

Lemma last_char_app (l : list byte) (b : byte) :
  forall c, last_char (l ++ [b]) c = char_of_byte b.
Proof.
  induction l as [|a l IH]; intros c; simpl; [reflexivity|]. apply IH.
Qed.

Lemma at_exit_valid (f : string) (l : list byte) (c0 : byte) :
  valid_ss (at_exit f l c0).
Proof. apply next_valid, after_valid, init_valid. Qed.

Lemma reachable_valid (f : string) (st : Scan) : Reachable f st -> valid_ss st.
Proof.
  induction 1 as [|st st' c _ [s Hs] Hsw|st st' c _ [s Hs] Hsw].
  - apply init_valid.
  - unfold switch_ss in Hsw. rewrite Hs, case_of_enumerator in Hsw.
    destruct s; try (injection Hsw as <-).
    + apply case_S_NORMAL_valid; eexists; exact Hs.
    + apply case_S_NORMAL_valid; eexists; reflexivity.
    + destruct (c =? LF); [|discriminate Hsw].
      injection Hsw as <-. eexists; reflexivity.
    + unfold valid_ss; unfold_scan; split_ifs; cbn [ss]; eauto.
    + unfold valid_ss; unfold_scan; split_ifs; cbn [ss]; eauto.
    + unfold valid_ss; unfold_scan; split_ifs; cbn [ss]; eauto.
  - unfold switch_ss in Hsw. rewrite Hs, case_of_enumerator in Hsw.
    destruct s; try discriminate Hsw.
    destruct (c =? LF); [discriminate Hsw|].
    injection Hsw as <-. eexists; reflexivity.
Qed.

(** ** What the loop prints *)

Lemma lines_with_snoc (m : string) (out : list Line) (l : Line) :
  lines_with m (out ++ [l]) = lines_with m out ++ (if has_msg m l then [l] else []).
Proof. unfold lines_with. rewrite filter_app. reflexivity. Qed.

Lemma forallb_snoc {A : Type} (p : A -> bool) (l : list A) (a : A) :
  forallb p (l ++ [a]) = forallb p l && p a.
Proof. rewrite forallb_app. simpl. rewrite andb_true_r. reflexivity. Qed.

Ltac lines_step :=
  unfold Lines_inv, counted, loop_line in *;
  cbn [line_count tab_count crlf_count cr_count c1_count bad_utf_count ss cout] in *;
  repeat rewrite lines_with_snoc;
  repeat rewrite forallb_snoc;
  repeat rewrite length_app;
  unfold has_msg, msg_tab, msg_bad_utf, msg_c1, msg_crlf, msg_cr,
    msg_missing_eol in *;
  eval_string_eqb;
  cbn [List.length orb andb Nat.add] in *.

Lemma init_lines : Lines_inv init.
Proof. unfold Lines_inv, counted. simpl. repeat split; lia. Qed.

Lemma next_lines (f : string) (st : Scan) (c : Z) :
  valid_ss st -> Lines_inv st -> Lines_inv (next f st c).
Proof.
  intros [s H] I. step_cases f st c s H; split_ifs; lines_step.
  all: destruct I as ((?&?)&(?&?)&(?&?)&(?&?)&(?&?)&?).
  all: rewrite ?Nat.add_0_r, ?andb_true_r.
  all: repeat split; try assumption; try lia.
  all: repeat match goal with
         | H : List.length ?x = _ |- context [List.length ?x] => rewrite H
       end.
  all: split_ifs; prop_eqb; lia.
Qed.

Lemma after_lines (f : string) (l : list byte) :
  forall st, valid_ss st -> Lines_inv st -> Lines_inv (after f l st).
Proof.
  induction l as [|b l IH]; intros st V I; simpl; [exact I|].
  apply IH; [apply next_valid, V | apply next_lines; assumption].
Qed.

Lemma at_exit_lines (f : string) (l : list byte) (c0 : byte) :
  Lines_inv (at_exit f l c0).
Proof.
  apply next_lines.
  - apply after_valid, init_valid.
  - apply after_lines; [apply init_valid | apply init_lines].
Qed.
(** ** Byte classes *)

Lemma char_of_byte_range (b : byte) : -128 <= char_of_byte b <= 127.
Proof. destruct b; vm_compute; split; discriminate. Qed.

(** A byte of plain text takes none of the special branches. *)
Lemma plain_byte_class (b : byte) :
  plain_byte b = true ->
  let c := char_of_byte b in
  (c =? CR) = false /\ (c =? TAB) = false /\
  isUtf8Header3 c = false /\ isUtf8Header2 c = false /\
  isUtf8Header1 c = false /\ isUtf8Trailer c = false /\
  ((c =? LF) = false -> (unsigned_char c <? 0x20) = false).
Proof.
  destruct b; vm_compute; intro H; try discriminate H; repeat split; auto.
Qed.

(** A trailer byte is no line terminator, tab or lead byte. *)
Lemma trailer_class (b : byte) :
  let c := char_of_byte b in
  isUtf8Trailer c = true ->
  (c =? LF) = false /\ (c =? CR) = false /\ (c =? TAB) = false /\
  isUtf8Header3 c = false /\ isUtf8Header2 c = false /\
  isUtf8Header1 c = false.
Proof.
  destruct b; vm_compute; intro H; try discriminate H; repeat split; auto.
Qed.

(** A lead byte is no line terminator or tab. *)
Lemma header_class (b : byte) :
  let c := char_of_byte b in
  (isUtf8Header3 c || isUtf8Header2 c || isUtf8Header1 c) = true ->
  (c =? LF) = false /\ (c =? CR) = false /\ (c =? TAB) = false.
Proof.
  destruct b; vm_compute; intro H; try discriminate H; repeat split; auto.
Qed.



(** ** One iteration: the state variable *)

Lemma expects_trailer_false (st : Scan) :
  valid_ss st -> expects_trailer st = false ->
  ss st = enumerator S_NORMAL \/ ss st = enumerator S_BOL \/ ss st = enumerator S_CR.
Proof.
  intros [s H] E. unfold expects_trailer in E. rewrite H in *.
  destruct s; auto; discriminate E.
Qed.

(** Only an LF leaves the machine at the beginning of a line. *)
Lemma next_bol_only_lf (f : string) (st : Scan) (c : Z) :
  valid_ss st -> (c =? LF) = false -> ss (next f st c) <> enumerator S_BOL.
Proof.
  intros [s H] E. step_cases f st c s H; rewrite ?E; split_ifs;
    cbn [enumerator]; lia.
Qed.

(** After an LF the machine is in S_BOL, or in S_NORMAL when the LF closed
    a bad multibyte sequence. *)
Lemma next_lf_ss (f : string) (st : Scan) :
  valid_ss st ->
  ss (next f st LF) = enumerator S_BOL \/ ss (next f st LF) = enumerator S_NORMAL.
Proof.
  intros [s H]. step_cases f st LF s H; cbn; auto.
Qed.

Lemma next_lf_bol (f : string) (st : Scan) :
  valid_ss st -> expects_trailer st = false ->
  ss (next f st LF) = enumerator S_BOL.
Proof.
  intros V E. destruct (expects_trailer_false st V E) as [H|[H|H]].
  - rewrite (next_eq f st LF S_NORMAL H). reflexivity.
  - rewrite (next_eq f st LF S_BOL H). reflexivity.
  - rewrite (next_eq f st LF S_CR H). reflexivity.
Qed.


(** ** The end of the stream and the output of a scan *)

Lemma loop_line_facts (l : Line) :
  loop_line l = true ->
  is_checking l = false /\ is_incident l = true /\
  has_msg msg_missing_eol l = false.
Proof.
  destruct l as [n|n k m|n]; unfold loop_line; simpl; try discriminate.
  intro H. repeat split.
  repeat (apply orb_true_iff in H; destruct H as [H|H]);
    apply String.eqb_eq in H; subst m; reflexivity.
Qed.

Lemma loop_lines_facts (out : list Line) :
  forallb loop_line out = true ->
  announcements out = [] /\ incident_lines out = out /\
  lines_with msg_missing_eol out = [].
Proof.
  induction out as [|l out IH]; simpl; [auto|].
  intro H. apply andb_true_iff in H. destruct H as [Hl Ho].
  destruct (loop_line_facts l Hl) as (A & B & C).
  destruct (IH Ho) as (A' & B' & C').
  unfold announcements, incident_lines, lines_with in *. simpl.
  rewrite A, B, C, A', B', C'. auto.
Qed.

Lemma end_of_stream_cout (f : string) (st : Scan) :
  cout (end_of_stream f st) =
  cout st ++ (if ss st =? enumerator S_BOL then []
              else [Incident f (line_count st + 1) msg_missing_eol]).
Proof.
  unfold end_of_stream, report.
  destruct (ss st =? enumerator S_BOL); simpl.
  - symmetry. apply app_nil_r.
  - reflexivity.
Qed.

Lemma end_of_stream_vars (f : string) (st : Scan) :
  line_count (end_of_stream f st) = line_count st /\
  tab_count (end_of_stream f st) = tab_count st /\
  crlf_count (end_of_stream f st) = crlf_count st /\
  cr_count (end_of_stream f st) = cr_count st /\
  c1_count (end_of_stream f st) = c1_count st /\
  bad_utf_count (end_of_stream f st) = bad_utf_count st /\
  ss (end_of_stream f st) = ss st.
Proof.
  unfold end_of_stream. destruct (negb (ss st =? enumerator S_BOL));
    repeat split; reflexivity.
Qed.

Lemma lines_with_app (m : string) (o1 o2 : list Line) :
  lines_with m (o1 ++ o2) = lines_with m o1 ++ lines_with m o2.
Proof. apply filter_app. Qed.

(** The final report adds no line of a category of the loop. *)
Lemma end_of_stream_lines (f : string) (st : Scan) (m : string) :
  String.eqb msg_missing_eol m = false ->
  lines_with m (cout (end_of_stream f st)) = lines_with m (cout st).
Proof.
  intro H. rewrite end_of_stream_cout, lines_with_app.
  destruct (ss st =? enumerator S_BOL); [apply app_nil_r|].
  change (lines_with m [Incident f (line_count st + 1) msg_missing_eol])
    with (if String.eqb msg_missing_eol m
          then [Incident f (line_count st + 1) msg_missing_eol] else []).
  rewrite H. apply app_nil_r.
Qed.

(** The lines of a scan that report a missing end of line. *)
Lemma scan_missing_eol (f : string) (l : list byte) (c0 : byte) :
  lines_with msg_missing_eol (cout (end_of_stream f (at_exit f l c0))) =
  if ss (at_exit f l c0) =? enumerator S_BOL then []
  else [Incident f (line_count (at_exit f l c0) + 1) msg_missing_eol].
Proof.
  rewrite end_of_stream_cout, lines_with_app.
  destruct (at_exit_lines f l c0) as (_ & _ & _ & _ & _ & H).
  destruct (loop_lines_facts _ H) as (_ & _ & ->).
  destruct (ss (at_exit f l c0) =? enumerator S_BOL); reflexivity.
Qed.

Lemma scan_announcements (f : string) (l : list byte) (c0 : byte) :
  announcements (cout (end_of_stream f (at_exit f l c0))) = [].
Proof.
  rewrite end_of_stream_cout. unfold announcements. rewrite filter_app.
  destruct (at_exit_lines f l c0) as (_ & _ & _ & _ & _ & H).
  destruct (loop_lines_facts _ H) as (A & _ & _).
  unfold announcements in A. rewrite A.
  destruct (ss (at_exit f l c0) =? enumerator S_BOL); reflexivity.
Qed.

(** ** [checkOneFile] and [main] *)

Lemma checkOneFile_eq (fs : FileSystem) (c0 : byte) (a : string) :
  checkOneFile fs c0 a =
  Done (io_ok fs a,
        match fs a with
        | None => [Checking a; Perror a]
        | Some d =>
            Checking a :: cout (end_of_stream a (at_exit a (content d) c0))
            ++ (if read_error d then [Perror a] else [])
        end).
Proof.
  unfold checkOneFile, io_ok. destruct (fs a) as [d|]; [|reflexivity].
  rewrite scan_eq. simpl. destruct (read_error d); simpl.
  - reflexivity.
  - rewrite app_nil_r. reflexivity.
Qed.

Lemma checkOneFile_announcements (fs : FileSystem) (c0 : byte) (a : string) :
  exists out, checkOneFile fs c0 a = Done (io_ok fs a, out) /\
              announcements out = [Checking a].
Proof.
  rewrite checkOneFile_eq. eexists; split; [reflexivity|].
  destruct (fs a) as [d|]; [|reflexivity].
  unfold announcements. cbn [filter is_checking]. rewrite filter_app.
  fold (announcements (cout (end_of_stream a (at_exit a (content d) c0)))).
  rewrite scan_announcements. destruct (read_error d); reflexivity.
Qed.

Lemma main_loop_eq (fs : FileSystem) (junk : nat -> byte) (args : list string) :
  forall i, exists out,
    main_loop fs junk i args =
    Done (if forallb (io_ok fs) args then EXIT_SUCCESS else EXIT_FAILURE, out)
    /\ announcements out = map Checking (scanned fs args).
Proof.
  induction args as [|a args IH]; intro i; simpl.
  - exists []. split; reflexivity.
  - destruct (checkOneFile_announcements fs (junk i) a) as (o & E & A).
    rewrite E. simpl. destruct (io_ok fs a); simpl.
    + destruct (IH (S i)) as (o' & E' & A'). rewrite E'. simpl.
      exists (o ++ o'). split; [reflexivity|].
      unfold announcements in *. rewrite filter_app, A, A'. reflexivity.
    + exists o. split; [reflexivity|]. exact A.
Qed.

(** ** Plain text *)

(** A byte of plain text read in S_NORMAL or S_BOL changes no incident
    counter and prints nothing. *)
Lemma next_plain (f : string) (st : Scan) (b : byte) :
  ss st = enumerator S_NORMAL \/ ss st = enumerator S_BOL ->
  plain_byte b = true ->
  let st' := next f st (char_of_byte b) in
  cout st' = cout st /\
  (ss st' = enumerator S_NORMAL \/ ss st' = enumerator S_BOL).
Proof.
  intros H P.
  destruct (plain_byte_class b P) as (E1 & E2 & E3 & E4 & E5 & E6 & E7).
  cbv zeta in *.
  destruct H as [H|H].
  - step_at f st (char_of_byte b) H.
    destruct (char_of_byte b =? LF); [split; [reflexivity|auto]|].
    rewrite E1, E2, E3, E4, E5, E6, E7 by reflexivity.
    split; [reflexivity|auto].
  - step_at f st (char_of_byte b) H.
    destruct (char_of_byte b =? LF); [split; [reflexivity|auto]|].
    rewrite E1, E2, E3, E4, E5, E6, E7 by reflexivity.
    split; [reflexivity|auto].
Qed.

Lemma after_plain (f : string) (l : list byte) :
  forall st,
    ss st = enumerator S_NORMAL \/ ss st = enumerator S_BOL ->
    forallb plain_byte l = true ->
    cout (after f l st) = cout st /\
    (ss (after f l st) = enumerator S_NORMAL \/
     ss (after f l st) = enumerator S_BOL).
Proof.
  induction l as [|b l IH]; intros st H P; simpl; [auto|].
  simpl in P. apply andb_true_iff in P. destruct P as [Pb Pl].
  destruct (next_plain f st b H Pb) as (C & S).
  destruct (IH _ S Pl) as (C' & S'). rewrite C', C. auto.
Qed.

(** The state in which a stream that ends in [b] leaves the loop: [b] is
    classified twice. *)
Lemma at_exit_snoc (f : string) (l : list byte) (b : byte) (c0 : byte) :
  at_exit f (l ++ [b]) c0 =
  next f (next f (after f l init) (char_of_byte b)) (char_of_byte b).
Proof.
  unfold at_exit. rewrite after_app, last_char_app. reflexivity.
Qed.

Lemma at_exit_bol_iff_lf (f : string) (l : list byte) (b c0 : byte) :
  (ss (at_exit f (l ++ [b]) c0) =? enumerator S_BOL) = (char_of_byte b =? LF).
Proof.
  rewrite at_exit_snoc.
  pose proof (after_valid f l init init_valid) as V.
  destruct (char_of_byte b =? LF) eqn:E.
  - apply Z.eqb_eq in E. rewrite E.
    apply Z.eqb_eq. apply next_lf_bol; [apply next_valid, V|].
    unfold expects_trailer.
    destruct (next_lf_ss f (after f l init) V) as [H|H]; rewrite H; reflexivity.
  - apply Z.eqb_neq. apply next_bol_only_lf; [apply next_valid, V|exact E].
Qed.

(** ** The counters *)

(** An iteration adds at most one to each counter and takes nothing off. *)
Lemma next_counters (f : string) (st : Scan) (c : Z) :
  valid_ss st -> counters_within 1 st (next f st c).
Proof.
  intros [s H]. unfold counters_within.
  step_cases f st c s H; split_ifs;
    cbn [line_count tab_count crlf_count cr_count c1_count bad_utf_count];
    lia.
Qed.

Lemma after_counters (f : string) (l : list byte) :
  forall st, valid_ss st ->
  counters_within (Z.of_nat (List.length l)) st (after f l st).
Proof.
  induction l as [|b l IH]; intros st V.
  - unfold counters_within. simpl. lia.
  - pose proof (next_counters f st (char_of_byte b) V) as N.
    pose proof (IH _ (next_valid f st (char_of_byte b) V)) as A.
    cbn [after List.length]. rewrite Nat2Z.inj_succ.
    unfold counters_within in *. lia.
Qed.

(** No counter exceeds the number of iterations of the loop, which is the
    length of the stream plus one. *)
Lemma counters_bounded (f : string) (l : list byte) (c0 : byte) :
  counters_within (Z.of_nat (List.length l) + 1) init (at_exit f l c0).
Proof.
  pose proof (after_counters f l init init_valid) as A.
  pose proof (next_counters f _ (last_char l (char_of_byte c0))
                (after_valid f l init init_valid)) as N.
  unfold at_exit, counters_within in *. lia.
Qed.



Lemma counted_never (cnt : Scan -> Z) (m : string) (st : Scan) :
  counted cnt m st -> cnt st = 0 -> lines_with m (cout st) = [].
Proof.
  intros [_ H] G. rewrite G in H. simpl in H.
  destruct (lines_with m (cout st)); [reflexivity|discriminate H].
Qed.


(** ** Line terminators *)





(** ** Tabs *)







(** ** Bytes read outside a pending multibyte sequence *)

Lemma not_expecting (st : Scan) :
  ss st = enumerator S_NORMAL \/ ss st = enumerator S_BOL ->
  valid_ss st /\ expects_trailer st = false.
Proof.
  intros [H|H]; (split; [eexists; exact H|]);
    unfold expects_trailer; rewrite H; reflexivity.
Qed.






(** ** Multibyte sequences *)


(** A trailer, read while trailers are expected. *)
Lemma next_trailer (f : string) (st : Scan) (c : Z) :
  isUtf8Trailer c = true ->
  (ss st = enumerator S_UTF_EXPECT3 ->
   next f st c = set_ss S_UTF_EXPECT2 st) /\
  (ss st = enumerator S_UTF_EXPECT2 ->
   next f st c = set_ss S_UTF_EXPECT1 st) /\
  (ss st = enumerator S_UTF_EXPECT1 ->
   next f st c = set_ss S_NORMAL st).
Proof.
  intro T. repeat split; intro H; rewrite (next_eq f st c _ H);
    unfold case_S_UTF_EXPECT; rewrite T; reflexivity.
Qed.


(** ** The line counter *)


Ltac wf_finish :=
  eexists; split; [eassumption|];
  unfold owes, expects_trailer, cr_pending;
  cbn [line_count bad_utf_count ss enumerator Z.eqb Pos.eqb orb];
  repeat split; try reflexivity; lia.

(** One byte of structurally valid UTF-8. *)
Lemma wf_step (f : string) (st : Scan) (p : nat) (b : byte) (rest : list byte) :
  valid_ss st -> owes p st ->
  utf8_wellformed p (b :: rest) = true ->
  let st' := next f st (char_of_byte b) in
  exists p',
    utf8_wellformed p' rest = true /\
    owes p' st' /\
    bad_utf_count st' = bad_utf_count st /\
    line_count st' + cr_pending st' + count_eol (ss st' =? enumerator S_CR) rest
    = line_count st + cr_pending st
      + count_eol (ss st =? enumerator S_CR) (b :: rest).
Proof.
  intros V O W. cbv zeta. cbn [utf8_wellformed count_eol] in *. cbv zeta in *.
  destruct p as [|[|[|[|p]]]]; cbn [owes] in O; try contradiction.
  - assert (C : (isUtf8Header3 (char_of_byte b) || isUtf8Header2 (char_of_byte b)
                 || isUtf8Header1 (char_of_byte b)) = true ->
                (char_of_byte b =? LF) = false /\
                (char_of_byte b =? CR) = false /\
                (char_of_byte b =? TAB) = false) by apply header_class.
    destruct (isUtf8Header3 (char_of_byte b)) eqn:H3;
      [|destruct (isUtf8Header2 (char_of_byte b)) eqn:H2;
        [|destruct (isUtf8Header1 (char_of_byte b)) eqn:H1]].
    1-3: destruct (C eq_refl) as (E1 & E2 & E3); rewrite E1, E2.
    4: apply andb_true_iff in W; destruct W as [T W];
       apply negb_true_iff in T; clear C.
    all: destruct (expects_trailer_false st V O) as [H|[H|H]];
      step_at f st (char_of_byte b) H;
      rewrite ?E1, ?E2, ?E3, ?H3, ?H2, ?H1, ?T;
      cbn [enumerator Z.eqb Pos.eqb];
      split_ifs; wf_finish.
  - apply andb_true_iff in W. destruct W as [T W].
    destruct (trailer_class b T) as (E1 & E2 & _). rewrite E1, E2.
    rewrite (proj2 (proj2 (next_trailer f st _ T)) O).
    destruct st; cbn in O; subst. unfold_scan. wf_finish.
  - apply andb_true_iff in W. destruct W as [T W].
    destruct (trailer_class b T) as (E1 & E2 & _). rewrite E1, E2.
    rewrite (proj1 (proj2 (next_trailer f st _ T)) O).
    destruct st; cbn in O; subst. unfold_scan. wf_finish.
  - apply andb_true_iff in W. destruct W as [T W].
    destruct (trailer_class b T) as (E1 & E2 & _). rewrite E1, E2.
    rewrite (proj1 (next_trailer f st _ T) O).
    destruct st; cbn in O; subst. unfold_scan. wf_finish.
Qed.

(** Over structurally valid UTF-8 the line counter, with a CR still
    pending, counts the line terminators, and no bad sequence is found. *)
Lemma wf_after (f : string) (l : list byte) :
  forall (st : Scan) (p : nat),
    valid_ss st -> owes p st -> utf8_wellformed p l = true ->
    line_count (after f l st) + cr_pending (after f l st)
    = line_count st + cr_pending st + count_eol (ss st =? enumerator S_CR) l /\
    bad_utf_count (after f l st) = bad_utf_count st.
Proof.
  induction l as [|b l IH]; intros st p V O W.
  - cbn [after count_eol]. split; [lia|reflexivity].
  - destruct (wf_step f st p b l V O W) as (p' & W' & O' & B & L).
    cbv zeta in O', B, L. cbn [after].
    destruct (IH _ p' (next_valid f st _ V) O' W') as (L' & B').
    split; [lia|congruence].
Qed.

(** * The claims of the specification *)

(** ** C1: CR,LF against a bare CR *)


(** ** C2: multibyte sequences *)




(** ** C3: the missing end of line *)



(** ** C4: tabs *)




(** ** C5: the line counter *)




(** ** C6: the verdict of a scan and the exit code *)

(** C6.  The verdict of [checkOneFile] is true exactly when the file opens
    and its stream ends at end-of-file, whatever bytes it delivers: it is
    true for every content of a readable file, and false for a file that
    cannot be opened or whose stream fails.  [main] returns 0 if and only if
    every argument has a true verdict, and EXIT_FAILURE, which is not 0,
    otherwise. *)
Theorem C6_exit_code_reflects_io_only
  (fs : FileSystem) (junk : nat -> byte) (args : list string) :
  (forall (c0 : byte) (a : string) (bytes : list byte),
      fs a = Some (mkFile bytes false) ->
      exists out, checkOneFile fs c0 a = Done (true, out)) /\
  (forall (c0 : byte) (a : string) (bytes : list byte),
      fs a = Some (mkFile bytes true) ->
      exists out, checkOneFile fs c0 a = Done (false, out)) /\
  (forall (c0 : byte) (a : string),
      fs a = None ->
      exists out, checkOneFile fs c0 a = Done (false, out)) /\
  (exists code out,
      main fs junk args = Done (code, out) /\
      (code = 0 <-> Forall (fun a => io_ok fs a = true) args) /\
      (code <> 0 -> code = EXIT_FAILURE)).
Proof.
  repeat split.
  - intros c0 a bytes H. rewrite checkOneFile_eq. unfold io_ok. rewrite H.
    eexists; reflexivity.
  - intros c0 a bytes H. rewrite checkOneFile_eq. unfold io_ok. rewrite H.
    eexists; reflexivity.
  - intros c0 a H. rewrite checkOneFile_eq. unfold io_ok. rewrite H.
    eexists; reflexivity.
  - unfold main. destruct (main_loop_eq fs junk args 1%nat) as (out & E & _).
    rewrite E. do 2 eexists. split; [reflexivity|].
    destruct (forallb (io_ok fs) args) eqn:F.
    + split; [|intro N; exfalso; apply N; reflexivity].
      split; [intros _|reflexivity].
      apply Forall_forall. apply (proj1 (forallb_forall _ _) F).
    + split; [|reflexivity].
      split; [discriminate|].
      intro A. pose proof (proj1 (Forall_forall _ _) A) as A'.
      apply (proj2 (forallb_forall _ _)) in A'. congruence.
Qed.

Lemma C6_witness :
  example_fs "tabs.c"%string = Some (mkFile [x09; x0d; x80] false) /\
  exists out, checkOneFile example_fs x00 "tabs.c"%string = Done (true, out).
Proof.
  split; [reflexivity|].
  apply (proj1 (C6_exit_code_reflects_io_only example_fs (fun _ => x00)
                  ["tabs.c"%string]) x00 "tabs.c"%string [x09; x0d; x80]).
  reflexivity.
Defined.

(** ** C7: which arguments are scanned *)

(** C7, as the code has it.  [main] scans the arguments in order and stops
    at the first whose scan fails: the announcements in the output are
    those of the arguments up to and including that one, in argument
    order; the arguments after it are not scanned. *)
Theorem C7_scans_until_first_failure
  (fs : FileSystem) (junk : nat -> byte) (args : list string) :
  exists code out,
    main fs junk args = Done (code, out) /\
    announcements out = map Checking (scanned fs args).
Proof.
  unfold main. destruct (main_loop_eq fs junk args 1%nat) as (out & E & A).
  rewrite E. do 2 eexists. split; [reflexivity|exact A].
Qed.

(** C7 as stated fails: the argument after an unopenable file is not
    scanned. *)
Lemma C7_counterexample :
  example_fs "missing.c"%string = None /\
  main example_fs (fun _ => x00) ["missing.c"%string; "tabs.c"%string]
  = Done (EXIT_FAILURE, [Checking "missing.c"%string; Perror "missing.c"%string]) /\
  ~ (exists code out,
        main example_fs (fun _ => x00) ["missing.c"%string; "tabs.c"%string]
        = Done (code, out) /\
        announcements out = map Checking ["missing.c"%string; "tabs.c"%string]).
Proof.
  split; [reflexivity|]. split; [reflexivity|].
  intros (code & out & E & A).
  assert (M : main example_fs (fun _ => x00) ["missing.c"%string; "tabs.c"%string]
              = Done (EXIT_FAILURE, [Checking "missing.c"%string; Perror "missing.c"%string]))
    by reflexivity.
  rewrite M in E. injection E as _ <-. discriminate A.
Qed.

(** ** C8: a clean file *)

(** C8, as the code has it.  For a file of 7-bit ASCII text without control
    bytes other than LF that ends in an LF, the output of [checkOneFile]
    has no incident line. *)
Theorem C8_clean_file_has_no_incident
  (fs : FileSystem) (f : string) (d : FileData) (l : list byte) (c0 : byte) :
  fs f = Some d ->
  content d = l ++ [x0a] ->
  forallb plain_byte l = true ->
  exists verdict out,
    checkOneFile fs c0 f = Done (verdict, out) /\ incident_lines out = [].
Proof.
  intros Hf Hc P. rewrite checkOneFile_eq, Hf, Hc.
  do 2 eexists. split; [reflexivity|].
  assert (C : cout (end_of_stream f (at_exit f (l ++ [x0a]) c0)) = []).
  { rewrite end_of_stream_cout, at_exit_bol_iff_lf.
    change (char_of_byte x0a =? LF) with true. rewrite app_nil_r.
    rewrite at_exit_snoc.
    destruct (after_plain f l init (or_intror eq_refl) P) as (C & S).
    destruct (next_plain f _ x0a S eq_refl) as (C1 & S1).
    destruct (next_plain f _ x0a S1 eq_refl) as (C2 & _).
    cbv zeta in *. rewrite C2, C1, C. reflexivity. }
  rewrite C. destruct (read_error d); reflexivity.
Qed.

Lemma C8_witness :
  (fun a : string => Some (mkFile [x41; x0a; x42; x0a] false)) "ok.c"%string
  = Some (mkFile [x41; x0a; x42; x0a] false) /\
  content (mkFile [x41; x0a; x42; x0a] false) = [x41; x0a; x42] ++ [x0a] /\
  forallb plain_byte [x41; x0a; x42] = true /\
  exists verdict out,
    checkOneFile (fun a => Some (mkFile [x41; x0a; x42; x0a] false)) x00 "ok.c"
    = Done (verdict, out) /\ incident_lines out = [].
Proof.
  split; [reflexivity|]. split; [reflexivity|]. split; [reflexivity|].
  apply (C8_clean_file_has_no_incident
           (fun a => Some (mkFile [x41; x0a; x42; x0a] false)) "ok.c"
           (mkFile [x41; x0a; x42; x0a] false) [x41; x0a; x42] x00);
    reflexivity.
Defined.

(** C8 as stated fails for a file of plain text that does not end in an
    LF: the missing-EOL incident is printed. *)
Lemma C8_counterexample :
  forallb plain_byte [x41] = true /\
  checkOneFile example_fs x00 "noeol.c"
  = Done (true, [Checking "noeol.c";
                 Incident "noeol.c" 1 msg_missing_eol]) /\
  incident_lines [Checking "noeol.c"; Incident "noeol.c" 1 msg_missing_eol]
  <> [].
Proof.
  split; [reflexivity|]. split; [reflexivity|]. discriminate.
Qed.

(** ** C9: the state variable holds an enumerator *)

(** C9.  In every state the loop reaches, [ss] holds the value of one of
    the six enumerators of [State]; so for every byte the [switch] selects
    one of the six cases and never [default: assert(0)], and the loop body
    runs to its end. *)
Theorem C9_switch_never_reaches_default (f : string) (st : Scan) :
  Reachable f st ->
  (exists s : State, ss st = enumerator s /\ case_of (ss st) = Some s) /\
  (forall c : Z, switch_ss f st c <> Assert_failed) /\
  (forall c : Z, exists st', loop_body f st c = Done st' /\ Reachable f st').
Proof.
  intro R. pose proof (reachable_valid f st R) as V.
  destruct V as [s H]. split; [|split].
  - exists s. split; [exact H|]. rewrite H. apply case_of_enumerator.
  - intro c. unfold switch_ss. rewrite H, case_of_enumerator.
    destruct s; try discriminate. destruct (c =? LF); discriminate.
  - intro c. unfold loop_body, reenter_point.
    unfold switch_ss at 1. rewrite H, case_of_enumerator.
    destruct s.
    + eexists; split; [reflexivity|].
      apply (Reachable_break f st _ c R).
      unfold switch_ss. rewrite H. reflexivity.
    + eexists; split; [reflexivity|].
      apply (Reachable_break f st _ c R).
      unfold switch_ss. rewrite H. reflexivity.
    + destruct (c =? LF) eqn:E.
      * eexists; split; [reflexivity|].
        apply (Reachable_break f st _ c R).
        unfold switch_ss. rewrite H. cbn [case_of enumerator]. rewrite E.
        reflexivity.
      * unfold switch_ss. cbn [set_ss ss enumerator case_of].
        eexists; split; [reflexivity|].
        eapply (Reachable_break f _ _ c).
        -- apply (Reachable_goto f st _ c R).
           unfold switch_ss. rewrite H. cbn [case_of enumerator]. rewrite E.
           reflexivity.
        -- reflexivity.
    + eexists; split; [reflexivity|].
      apply (Reachable_break f st _ c R).
      unfold switch_ss. rewrite H. reflexivity.
    + eexists; split; [reflexivity|].
      apply (Reachable_break f st _ c R).
      unfold switch_ss. rewrite H. reflexivity.
    + eexists; split; [reflexivity|].
      apply (Reachable_break f st _ c R).
      unfold switch_ss. rewrite H. reflexivity.
Qed.

Lemma C9_witness :
  Reachable "main.cpp" init /\
  (exists s : State, ss init = enumerator s /\ case_of (ss init) = Some s) /\
  (forall c : Z, switch_ss "main.cpp" init c <> Assert_failed) /\
  (forall c : Z, exists st',
      loop_body "main.cpp" init c = Done st' /\ Reachable "main.cpp" st').
Proof.
  split.
  - apply Reachable_init.
  - apply (C9_switch_never_reaches_default "main.cpp" init).
    apply Reachable_init.
Defined.

(** ** C10: the iteration after the last byte *)




(** * Further properties of the scanner *)

(** ** The UTF-8 helpers on raw bytes *)

(** X1.  The helpers see the signed [char], but decide by the raw byte value:
    a trailer is 0x80..0xBF, the lead byte of a 2-byte sequence 0xC0..0xDF,
    of a 3-byte sequence 0xE0..0xEF, of a 4-byte sequence 0xF0..0xF7; and
    [(unsigned char)c] is the raw byte.  Sign extension changes nothing. *)
Theorem utf8_helpers_by_byte_range (b : byte) :
  let c := char_of_byte b in
  let n := unsigned_byte b in
  isUtf8Trailer c = (0x80 <=? n) && (n <=? 0xbf) /\
  isUtf8Header1 c = (0xc0 <=? n) && (n <=? 0xdf) /\
  isUtf8Header2 c = (0xe0 <=? n) && (n <=? 0xef) /\
  isUtf8Header3 c = (0xf0 <=? n) && (n <=? 0xf7) /\
  unsigned_char c = n.
Proof. destruct b; vm_compute; repeat split. Qed.

(** ** Bytes that pass unnoticed *)

Lemma silent_class (b : byte) :
  ((0x20 <=? unsigned_byte b) && (unsigned_byte b <=? 0x7f)
   || (0xf8 <=? unsigned_byte b)) = true ->
  let c := char_of_byte b in
  (c =? LF) = false /\ (c =? CR) = false /\ (c =? TAB) = false /\
  isUtf8Header3 c = false /\ isUtf8Header2 c = false /\
  isUtf8Header1 c = false /\ isUtf8Trailer c = false /\
  (unsigned_char c <? 0x20) = false.
Proof.
  destruct b; vm_compute; intro H; try discriminate H; repeat split.
Qed.

(** X2.  A byte from 0x20 to 0x7F (DEL included) or from 0xF8 to 0xFF, read in
    S_NORMAL or S_BOL, raises no incident: the loop body changes nothing
    but the state, which becomes S_NORMAL.  The bytes 0xF8..0xFF, which no
    UTF-8 sequence contains, are accepted like plain text. *)
Theorem silent_bytes_change_nothing (f : string) (st : Scan) (b : byte) :
  ss st = enumerator S_NORMAL \/ ss st = enumerator S_BOL ->
  0x20 <= unsigned_byte b <= 0x7f \/ 0xf8 <= unsigned_byte b ->
  loop_body f st (char_of_byte b) = Done (set_ss S_NORMAL st).
Proof.
  intros H R.
  assert (Rb : ((0x20 <=? unsigned_byte b) && (unsigned_byte b <=? 0x7f)
                || (0xf8 <=? unsigned_byte b)) = true).
  { apply orb_true_iff. destruct R as [[R1 R2]|R]; [left|right].
    - apply andb_true_iff. split; apply Z.leb_le; assumption.
    - apply Z.leb_le; assumption. }
  destruct (silent_class b Rb) as (E1 & E2 & E3 & E4 & E5 & E6 & E7 & E8).
  cbv zeta in *.
  destruct H as [H|H]; rewrite (loop_body_eq f st _ _ H); f_equal;
    unfold case_S_NORMAL; rewrite E1, E2, E3, E4, E5, E6, E7, E8;
    destruct st; unfold set_ss; cbn in *; congruence.
Qed.

Lemma silent_bytes_witness :
  (ss init = enumerator S_NORMAL \/ ss init = enumerator S_BOL) /\
  (0x20 <= unsigned_byte xff <= 0x7f \/ 0xf8 <= unsigned_byte xff) /\
  loop_body "a.c" init (char_of_byte xff) = Done (set_ss S_NORMAL init).
Proof.
  split; [right; reflexivity|].
  split; [right; vm_compute; discriminate|].
  apply (silent_bytes_change_nothing "a.c" init xff).
  - right; reflexivity.
  - right; vm_compute; discriminate.
Defined.

(** ** The jump back to [reenter_point] *)

(** X3.  After a [goto reenter_point] the [switch] ends in a [break]: the jump
    is taken at most once for a byte, whatever [ss] holds, so the loop body
    always ends, and fuel beyond 2 changes nothing. *)
Theorem goto_taken_at_most_once (f : string) (st : Scan) (c : Z) :
  (forall st', switch_ss f st c = Goto_reenter_point st' ->
               exists st'', switch_ss f st' c = Break st'') /\
  loop_body f st c <> OutOfFuel /\
  (forall n : nat, reenter_point (S (S n)) f st c = loop_body f st c).
Proof.
  split; [|split].
  - intros st' H. unfold switch_ss in H.
    destruct (case_of (ss st)) as [s|]; [|discriminate H].
    destruct s; try discriminate H.
    destruct (c =? LF); [discriminate H|].
    injection H as <-. unfold switch_ss. cbn [bare_cr set_ss ss].
    rewrite case_of_enumerator. eexists; reflexivity.
  - unfold loop_body, reenter_point, switch_ss.
    destruct (case_of (ss st)) as [s|]; [|discriminate].
    destruct s; try discriminate.
    destruct (c =? LF); [discriminate|].
    cbn [bare_cr set_ss ss]. rewrite case_of_enumerator. discriminate.
  - intro n. apply loop_body_fuel.
Qed.

Lemma goto_taken_at_most_once_witness :
  switch_ss "a.c" (set_ss S_CR init) 65
  = Goto_reenter_point (bare_cr "a.c" (set_ss S_CR init)) /\
  exists st'', switch_ss "a.c" (bare_cr "a.c" (set_ss S_CR init)) 65 = Break st''.
Proof.
  split; [reflexivity|].
  apply (proj1 (goto_taken_at_most_once "a.c" (set_ss S_CR init) 65)).
  reflexivity.
Defined.

(** ** The counters of a whole scan *)

(** X4.  No counter of a scan is negative, and none exceeds the number of bytes
    of the stream plus one (the number of iterations of the loop): the
    [int] counters, and [line_count + 1] in [report], cannot overflow on a
    stream of fewer than 2^31 - 2 bytes. *)
Theorem counters_stay_within_iterations (f : string) (l : list byte) (c0 : byte) :
  exists st,
    scan f l c0 = Done st /\
    counters_within (Z.of_nat (List.length l) + 1) init st /\
    (Z.of_nat (List.length l) < 2 ^ 31 - 2 ->
     line_count st + 1 < 2 ^ 31 /\ tab_count st < 2 ^ 31 /\
     crlf_count st < 2 ^ 31 /\ cr_count st < 2 ^ 31 /\
     c1_count st < 2 ^ 31 /\ bad_utf_count st < 2 ^ 31).
Proof.
  rewrite scan_eq. eexists; split; [reflexivity|].
  pose proof (counters_bounded f l c0) as B.
  destruct (end_of_stream_vars f (at_exit f l c0))
    as (E1 & E2 & E3 & E4 & E5 & E6 & _).
  unfold counters_within in *. rewrite E1, E2, E3, E4, E5, E6.
  split; [exact B|]. intro S. cbn [init line_count tab_count crlf_count
    cr_count c1_count bad_utf_count] in B. lia.
Qed.

Lemma counters_stay_within_iterations_witness :
  Z.of_nat (List.length [x09; x0a]) < 2 ^ 31 - 2 /\
  exists st,
    scan "a.c" [x09; x0a] x00 = Done st /\ tab_count st < 2 ^ 31.
Proof.
  split; [vm_compute; reflexivity|].
  destruct (counters_stay_within_iterations "a.c" [x09; x0a] x00)
    as (st & S & _ & B).
  exists st. split; [exact S|].
  apply B. vm_compute; reflexivity.
Defined.


(** ** The size and the order of the output *)











(** ** The uninitialised byte *)

(** X8.  The content that [c] has before the first [get] matters for the empty
    stream only.  The scan of a stream that is not empty is the same for
    every initial content.  On the empty stream the single iteration
    classifies that content, and the scan reports a missing end of line
    unless it happens to be an LF. *)
Theorem uninitialised_byte_matters_for_empty_file_only
  (f : string) (b : byte) (l : list byte) (c0 c0' : byte) :
  scan f (b :: l) c0 = scan f (b :: l) c0' /\
  (exists st,
      scan f [] c0 = Done st /\
      lines_with msg_missing_eol (cout st) =
      if char_of_byte c0 =? LF then []
      else [Incident f (line_count st + 1) msg_missing_eol]).
Proof.
  split; [reflexivity|].
  rewrite scan_eq. eexists; split; [reflexivity|].
  destruct (end_of_stream_vars f (at_exit f [] c0))
    as (-> & _ & _ & _ & _ & _ & _).
  rewrite scan_missing_eol.
  unfold at_exit. cbn [after last_char].
  destruct (char_of_byte c0 =? LF) eqn:E.
  - apply Z.eqb_eq in E. rewrite E.
    rewrite (next_lf_bol f init init_valid eq_refl). reflexivity.
  - pose proof (next_bol_only_lf f init _ init_valid E) as N.
    apply Z.eqb_neq in N. rewrite N. reflexivity.
Qed.

(** ** The output grows with the stream *)

Lemma next_cout_grows (f : string) (st : Scan) (c : Z) :
  valid_ss st -> exists extra, cout (next f st c) = cout st ++ extra.
Proof.
  intros [s H].
  step_cases f st c s H; split_ifs; eexists; rewrite <- ?app_assoc;
    try reflexivity; symmetry; apply app_nil_r.
Qed.

Lemma after_cout_grows (f : string) (l : list byte) :
  forall st, valid_ss st ->
  exists extra, cout (after f l st) = cout st ++ extra.
Proof.
  induction l as [|b l IH]; intros st V.
  - exists []. symmetry. apply app_nil_r.
  - cbn [after].
    destruct (next_cout_grows f st (char_of_byte b) V) as (e1 & E1).
    destruct (IH _ (next_valid f st (char_of_byte b) V)) as (e2 & E2).
    exists (e1 ++ e2). rewrite E2, E1, app_assoc. reflexivity.
Qed.

(** X9.  Lines are printed in the order of the bytes and never withdrawn: what
    the loop has printed once it has consumed a prefix of the stream is the
    beginning of the output of the whole scan. *)
Theorem output_of_prefix_is_prefix
  (f : string) (l1 l2 : list byte) (c0 : byte) :
  exists st stf extra,
    feed f l1 init = Done st /\
    scan f (l1 ++ l2) c0 = Done stf /\
    cout stf = cout st ++ extra.
Proof.
  rewrite (feed_after f l1 init init_valid), scan_eq.
  pose proof (after_valid f l1 init init_valid) as V1.
  destruct (after_cout_grows f l2 _ V1) as (e2 & E2).
  destruct (next_cout_grows f _ (last_char (l1 ++ l2) (char_of_byte c0))
              (after_valid f l2 _ V1)) as (e3 & E3).
  do 3 eexists. split; [reflexivity|]. split; [reflexivity|].
  rewrite end_of_stream_cout. unfold at_exit. rewrite after_app.
  rewrite E3, E2, <- !app_assoc. reflexivity.
Qed.

(** ** Structurally valid UTF-8 *)



(** An LF read outside a pending multibyte sequence is no bad sequence. *)
Lemma next_lf_bad (f : string) (st : Scan) :
  valid_ss st -> expects_trailer st = false ->
  bad_utf_count (next f st LF) = bad_utf_count st.
Proof.
  intros V E.
  destruct (expects_trailer_false st V E) as [H|[H|H]];
    step_at f st LF H; reflexivity.
Qed.

(** Only a CR leaves the machine in S_CR. *)
Lemma next_cr_only_cr (f : string) (st : Scan) (c : Z) :
  valid_ss st -> (c =? CR) = false -> ss (next f st c) <> enumerator S_CR.
Proof.
  intros [s H] E. step_cases f st c s H; rewrite ?E; split_ifs;
    cbn [enumerator]; lia.
Qed.

(** X10.  A text of structurally valid UTF-8 (sequences of 1 to 4 bytes, each
    lead byte followed by its trailers) that ends in an LF gets no bad
    sequence: the counter stays 0 and no such line is printed. *)
Theorem wellformed_text_has_no_bad_sequence
  (f : string) (l : list byte) (c0 : byte) :
  utf8_wellformed 0 (l ++ [x0a]) = true ->
  exists st,
    scan f (l ++ [x0a]) c0 = Done st /\
    bad_utf_count st = 0 /\
    lines_with msg_bad_utf (cout st) = [].
Proof.
  intro W. rewrite scan_eq. eexists; split; [reflexivity|].
  destruct (wf_after f (l ++ [x0a]) init 0%nat init_valid eq_refl W) as (_ & B).
  cbn [init bad_utf_count] in B.
  pose proof (after_valid f l init init_valid) as V.
  assert (B2 : bad_utf_count (at_exit f (l ++ [x0a]) c0) = 0).
  { rewrite at_exit_snoc. rewrite after_app in B. cbn [after] in B.
    change (char_of_byte x0a) with LF in *.
    destruct (not_expecting (next f (after f l init) LF)) as (V1 & E1).
    { destruct (next_lf_ss f _ V) as [H|H]; [right|left]; exact H. }
    rewrite (next_lf_bad f _ V1 E1). exact B. }
  destruct (end_of_stream_vars f (at_exit f (l ++ [x0a]) c0))
    as (_ & _ & _ & _ & _ & -> & _).
  split; [exact B2|].
  rewrite end_of_stream_lines by reflexivity.
  destruct (at_exit_lines f (l ++ [x0a]) c0) as (_ & Cb & _).
  apply (counted_never bad_utf_count msg_bad_utf _ Cb B2).
Qed.

Lemma wellformed_text_has_no_bad_sequence_witness :
  utf8_wellformed 0 ([xc3; xa9; xe2; x82; xac; xf0; x9f; x98; x80] ++ [x0a])
  = true /\
  exists st,
    scan "a.c" ([xc3; xa9; xe2; x82; xac; xf0; x9f; x98; x80] ++ [x0a]) x00
    = Done st /\
    bad_utf_count st = 0 /\ lines_with msg_bad_utf (cout st) = [].
Proof.
  split; [reflexivity|].
  apply (wellformed_text_has_no_bad_sequence "a.c"
           [xc3; xa9; xe2; x82; xac; xf0; x9f; x98; x80] x00).
  reflexivity.
Defined.

(** ** Line numbers *)





(** ** What the counters count *)







(** ** The output of [main] *)

Lemma incidents_have_no_perror (out : list Line) :
  forallb is_incident out = true -> filter is_perror out = [].
Proof.
  induction out as [|l out IH]; [reflexivity|].
  cbn [forallb filter]. intro H. apply andb_true_iff in H.
  destruct H as [Hl Ho]. destruct l; try discriminate Hl.
  cbn [is_perror]. apply IH, Ho.
Qed.

Lemma scan_has_no_perror (f : string) (l : list byte) (c0 : byte) :
  filter is_perror (cout (end_of_stream f (at_exit f l c0))) = [].
Proof.
  apply incidents_have_no_perror.
  rewrite end_of_stream_cout, forallb_app.
  destruct (at_exit_lines f l c0) as (_ & _ & _ & _ & _ & F).
  apply andb_true_iff. split.
  - clear -F. induction (cout (at_exit f l c0)) as [|x out IH]; [reflexivity|].
    cbn [forallb] in *. apply andb_true_iff in F. destruct F as [Fx Fo].
    destruct (loop_line_facts x Fx) as (_ & -> & _). apply IH, Fo.
  - destruct (ss (at_exit f l c0) =? enumerator S_BOL); reflexivity.
Qed.

Lemma checkOneFile_perror (fs : FileSystem) (c0 : byte) (a : string) :
  exists out,
    checkOneFile fs c0 a = Done (io_ok fs a, out) /\
    if io_ok fs a then filter is_perror out = []
    else exists out', out = out' ++ [Perror a] /\ filter is_perror out' = [].
Proof.
  rewrite checkOneFile_eq. eexists; split; [reflexivity|].
  unfold io_ok. destruct (fs a) as [d|].
  - destruct (read_error d); cbn [negb].
    + eexists (Checking a :: _). split; [reflexivity|].
      cbn [filter is_perror]. apply scan_has_no_perror.
    + rewrite app_nil_r. cbn [filter is_perror]. apply scan_has_no_perror.
  - exists [Checking a]. split; reflexivity.
Qed.

(** X14.  A run of [main] that succeeds prints no [perror] line, and every
    argument passes the I/O test.  A run that fails prints exactly one,
    as the last line of its output, and it names an argument whose file
    could not be opened or read to its end. *)
Theorem failing_run_ends_with_perror
  (fs : FileSystem) (junk : nat -> byte) (args : list string) :
  exists code out,
    main fs junk args = Done (code, out) /\
    ((code = EXIT_SUCCESS /\ forallb (io_ok fs) args = true /\
      filter is_perror out = []) \/
     (code = EXIT_FAILURE /\
      exists a out',
        In a args /\ io_ok fs a = false /\
        out = out' ++ [Perror a] /\ filter is_perror out' = [])).
Proof.
  unfold main. generalize 1%nat.
  induction args as [|a args IH]; intro i; cbn [main_loop].
  - do 2 eexists. split; [reflexivity|]. left. repeat split.
  - destruct (checkOneFile_perror fs (junk i) a) as (o & E & P).
    rewrite E. cbn [bind fst snd].
    destruct (io_ok fs a) eqn:K; cbn [negb].
    + destruct (IH (S i)) as (code & o' & E' & R). rewrite E'. cbn [bind fst snd].
      do 2 eexists. split; [reflexivity|].
      destruct R as [(C & F & N)|(C & x & o'' & I & Kx & Eo & N)].
      * left. split; [exact C|]. split; [cbn [forallb]; rewrite K, F; reflexivity|].
        rewrite filter_app, P, N. reflexivity.
      * right. split; [exact C|]. exists x, (o ++ o'').
        split; [right; exact I|]. split; [exact Kx|].
        split; [rewrite Eo, app_assoc; reflexivity|].
        rewrite filter_app, P, N. reflexivity.
    + do 2 eexists. split; [reflexivity|]. right. split; [reflexivity|].
      destruct P as (o' & Eo & N). exists a, o'.
      split; [left; reflexivity|]. split; [exact K|]. split; assumption.
Qed.

End SourceChecker.
